(** * Paginated, periodically refreshed lists: the traces and workflow-runs hooks

    A shallow embedding of the pure logic of
    [packages/playground/src/domains/observability/hooks/use-traces.tsx] and
    [packages/playground-ui/src/hooks/use-workflow-runs.ts]:
    the [getNextPageParam] and [select] options the two hooks hand to
    [useInfiniteQuery].

    The [select] callbacks allocate a [Set], and their [filter] callback
    mutates it, so they are embedded in a small state-and-exception monad over
    a store of [Set] objects.  Property access on [undefined] raises a
    [TypeError]; [?.] and [??] do not. *)

From stdpp Require Import base option list sets gmap strings sorting.

Set Warnings "-clear-no-such-hyp".

Open Scope string_scope.
Open Scope list_scope.
Open Scope nat_scope.

(** ** A fragment of the JavaScript runtime *)

Module Js.

Inductive error : Type := TypeError.

(** How the evaluation of an expression ends. *)
Inductive completion (A : Type) : Type :=
| Normal (a : A)
| Throw (e : error).
Arguments Normal {A} a.
Arguments Throw {A} e.

#[export] Instance completion_ret : MRet completion := λ A a, Normal a.
#[export] Instance completion_bind : MBind completion := λ A B f c,
  match c with
  | Normal a => f a
  | Throw e => Throw e
  end.

(** A value that may be [undefined] is an [option]. *)

(** [o.field]: reading a property of [undefined] throws. *)
Definition get {O F : Type} (o : option O) (field : O → F) : completion F :=
  match o with
  | Some obj => Normal (field obj)
  | None => Throw TypeError
  end.

(** [o?.field]: optional chaining short-circuits to [undefined]. *)
Definition get_opt {O F : Type} (o : option O) (field : O → option F) : option F :=
  match o with
  | Some obj => field obj
  | None => None
  end.

(** [o ?? d]: nullish coalescing. *)
Definition nullish {A : Type} (o : option A) (d : A) : A :=
  match o with
  | Some a => a
  | None => d
  end.

(** Truthiness of a value that is a boolean or [undefined]. *)
Definition truthy (o : option bool) : bool :=
  match o with
  | Some b => b
  | None => false
  end.

(** The store: the [Set<string>] objects allocated so far, by reference. *)
Abbreviation ref := positive.
Abbreviation store := (gmap positive (gset string)).

(** A computation reads and updates the store, and may throw. *)
Definition JS (A : Type) : Type := store → completion (A * store).

#[export] Instance JS_ret : MRet JS := λ A a σ, Normal (a, σ).
#[export] Instance JS_bind : MBind JS := λ A B f m σ,
  match m σ with
  | Normal (a, σ') => f a σ'
  | Throw e => Throw e
  end.

Definition lift {A : Type} (c : completion A) : JS A := λ σ,
  match c with
  | Normal a => Normal (a, σ)
  | Throw e => Throw e
  end.

(** [new Set<string>()] *)
Definition new_Set : JS ref := λ σ,
  let r := fresh (dom σ) in Normal (r, <[r := ∅]> σ).

(** [s.has(k)] *)
Definition Set_has (s : ref) (k : string) : JS bool := λ σ,
  match σ !! s with
  | Some keys => Normal (bool_decide (k ∈ keys), σ)
  | None => Throw TypeError
  end.

(** [s.add(k)] *)
Definition Set_add (s : ref) (k : string) : JS unit := λ σ,
  match σ !! s with
  | Some keys => Normal ((), <[s := {[k]} ∪ keys]> σ)
  | None => Throw TypeError
  end.

(** [arr.flatMap(f)] for a callback that returns an array. *)
Definition Array_flatMap {A B : Type} (f : A → list B) (arr : list A) : list B :=
  mjoin (f <$> arr).

(** What [flatMap] appends for one callback result: the elements of an
    array, and any other value (here: [undefined]) as one element. *)
Definition spread {B : Type} (v : option (list B)) : list (option B) :=
  match v with
  | Some elements => Some <$> elements
  | None => [None]
  end.

(** [arr.filter(cb)]: the callback runs once per element, in index order,
    and the elements it accepts are kept. *)
Fixpoint Array_filter {A : Type} (cb : A → JS bool) (arr : list A) : JS (list A) :=
  match arr with
  | [] => mret []
  | x :: rest =>
      keep ← cb x;
      kept ← Array_filter cb rest;
      mret (if keep : bool then x :: kept else kept)
  end.

(** One invocation, started on a store [σ]; the store it leaves is dropped. *)
Definition outcome {A : Type} (m : JS A) (σ : store) : completion A :=
  match m σ with
  | Normal (a, _) => Normal a
  | Throw e => Throw e
  end.

(** An invocation on the empty store. *)
Definition run {A : Type} (m : JS A) : completion A := outcome m ∅.

End Js.
Import Js.

(** ** Data model

    Page parameters are page indices, integers far below 2^53, where the
    addition of JavaScript numbers is exact: they are in [Z]. *)

(** A trace span, as the tests of the hook build it: its identifier and a
    payload field. *)
Record Span : Type := makeSpan { traceId : string; name : string }.

(** A workflow run: its identifier and a payload field. *)
Record Run : Type := makeRun { runId : string; workflowName : string }.

Record Pagination : Type := { hasMore : option bool }.

(** One response of [client.listTraces]; [spans], [pagination] and [hasMore]
    may be missing. *)
Record TracePage : Type := {
  spans : option (list Span);
  pagination : option Pagination
}.

(** One response of [client.getWorkflow(id).runs].  Its type has [runs] an
    array; the field is optional here so that a response without it can be
    put to the hook. *)
Record RunPage : Type := { runs : option (list Run) }.

(** The [data] the query library hands to [select]. *)
Record InfiniteData (P : Type) : Type := { pages : list P }.
Arguments pages {P} _.
Arguments Build_InfiniteData {P} _.

#[global] Instance Span_eq_dec : EqDecision Span.
Proof. solve_decision. Defined.
#[global] Instance Run_eq_dec : EqDecision Run.
Proof. solve_decision. Defined.

(** ** use-traces.tsx *)

Module Traces.

Definition getNextPageParam (lastPage : option TracePage)
    (_allPages : list TracePage) (lastPageParam : Z) : completion (option Z) :=
  if truthy (get_opt (get_opt lastPage pagination) hasMore)
  then mret (Some (lastPageParam + 1)%Z)
  else mret None.

(** The [filter] callback of [select], closed over [seen]. *)
Definition unseen (seen : ref) (span : Span) : JS bool :=
  dup ← Set_has seen (traceId span);
  if dup : bool then mret false
  else Set_add seen (traceId span);; mret true.

Definition select (data : InfiniteData TracePage) : JS (list Span) :=
  seen ← new_Set;
  Array_filter (unseen seen)
    (Array_flatMap (λ page, nullish (spans page) []) (pages data)).

(** The records of the pages, one page after the other; a page without
    [spans] has none. *)
Definition records (data : InfiniteData TracePage) : list Span :=
  mjoin ((λ page, default [] (spans page)) <$> pages data).

End Traces.

(** ** use-workflow-runs.ts *)

Module Runs.

Definition PER_PAGE : nat := 20.

Definition getNextPageParam (lastPage : RunPage)
    (_allPages : list RunPage) (lastPageParam : Z) : completion (option Z) :=
  len ← get (runs lastPage) (length (A:=Run));
  if bool_decide (len < PER_PAGE)
  then mret None
  else mret (Some (lastPageParam + 1)%Z).

(** The [filter] callback of [select]; [run] is an element of the flattened
    array, which is [undefined] where a page had no [runs]. *)
Definition unseen (seen : ref) (run : option Run) : JS bool :=
  key ← lift (get run runId);
  dup ← Set_has seen key;
  if dup : bool then mret false
  else Set_add seen key;; mret true.

Definition select (data : InfiniteData RunPage) : JS (list (option Run)) :=
  seen ← new_Set;
  Array_filter (unseen seen)
    (Array_flatMap (λ page, spread (runs page)) (pages data)).

(** The page type has [runs] an array: no page is without it. *)
Definition well_typed (data : InfiniteData RunPage) : Prop :=
  Forall (λ page, is_Some (runs page)) (pages data).

(** The records of the pages, one page after the other. *)
Definition records (data : InfiniteData RunPage) : list Run :=
  mjoin ((λ page, default [] (runs page)) <$> pages data).

End Runs.

#[global] Instance Runs_well_typed_dec data : Decision (Runs.well_typed data).
Proof. unfold Runs.well_typed. apply _. Defined.

(** ** The projection, threaded purely *)

Section first_seen.
Context {A : Type} (key : A → string).

(** What the [filter] of [select] keeps of [l] when the identifiers in
    [seen] have been met already. *)
Fixpoint fresh_keys (seen : gset string) (l : list A) : list A :=
  match l with
  | [] => []
  | x :: rest =>
      if decide (key x ∈ seen) then fresh_keys seen rest
      else x :: fresh_keys ({[key x]} ∪ seen) rest
  end.

Definition first_seen (l : list A) : list A := fresh_keys ∅ l.

(** The identifiers of a list of records, as a set. *)
Definition keys_of (l : list A) : gset string := list_to_set (key <$> l).

(** The records of [l] that carry identifier [k]. *)
Definition matching (k : string) (l : list A) : list A :=
  filter (λ x, key x = k) l.

(** Following the words "keep exactly the first occurrence of each
    identifier in flattening order": position [i] of [l] is kept exactly
    when no earlier position carries the same identifier. *)
Definition first_occurrences (l : list A) : list A :=
  omap (λ i, x ← l !! i;
             if decide (key x ∈ key <$> take i l) then None else Some x)
       (seq 0 (length l)).

End first_seen.

(** ** Notions the statements use *)

(** The most recent page says that more data exists. *)
Definition has_more (lastPage : option TracePage) : Prop :=
  ∃ page pg, lastPage = Some page ∧ pagination page = Some pg ∧ hasMore pg = Some true.

(** The identifiers of one page of either hook. *)
Definition span_ids (page : TracePage) : gset string :=
  keys_of traceId (default [] (spans page)).
Definition run_ids (page : RunPage) : gset string :=
  keys_of runId (default [] (runs page)).

(** No identifier lies in two of the sets. *)
Definition pairwise_disjoint (sets : list (gset string)) : Prop :=
  ∀ i j s t, i ≠ j → sets !! i = Some s → sets !! j = Some t → s ## t.

(** No page repeats an identifier within itself. *)
Definition distinct_within {A : Type} (key : A → string) (pages : list (list A)) : Prop :=
  Forall (λ recs, NoDup (key <$> recs)) pages.

(** Renaming the fields of the traces hook into those of the runs hook:
    [traceId] to [runId], [name] to [workflowName], [spans] to [runs]. *)
Definition span_as_run (s : Span) : Run :=
  {| runId := traceId s; workflowName := name s |}.
Definition page_as_runs (page : TracePage) : RunPage :=
  {| runs := match spans page with
             | Some recs => Some (span_as_run <$> recs)
             | None => None
             end |}.
Definition data_as_runs (data : InfiniteData TracePage) : InfiniteData RunPage :=
  {| pages := page_as_runs <$> pages data |}.

(** Every page carries its record sequence. *)
Definition spans_present (data : InfiniteData TracePage) : Prop :=
  Forall (λ page, is_Some (spans page)) (pages data).

(** ** The page accumulator *)

Module Accumulator.

(** Modelled from the spec: the Page Accumulator is the infinite query of the
    query library, which the hooks call and which is not part of them.  An
    entry of its retained set is a page under the page index it was fetched
    for (section 4.2: "the set of retained Pages is keyed by page index"). *)
Record Entry : Type := { index : nat; page : TracePage }.

(** Modelled from the spec: what the accumulator reacts to, a fetch of a page
    index that completed with a page or that failed (section 4.2). *)
Inductive Event : Type :=
| Completed (idx : nat) (p : TracePage)
| Failed (idx : nat).

(** Modelled from the spec: a completed fetch of page [idx] "supersedes
    (rather than joins) earlier fetches" of that index, so the retained entry
    of the index is replaced; a new index takes its place in page-index order,
    the order in which section 9 has the projector go through the pages. *)
Fixpoint retain (idx : nat) (p : TracePage) (acc : list Entry) : list Entry :=
  match acc with
  | [] => [{| index := idx; page := p |}]
  | e :: rest =>
      if decide (idx < index e) then {| index := idx; page := p |} :: e :: rest
      else if decide (idx = index e) then {| index := idx; page := p |} :: rest
      else e :: retain idx p rest
  end.

(** Modelled from the spec: "a failed refresh leaves the previously retained
    Page for that index untouched". *)
Definition step (acc : list Entry) (ev : Event) : list Entry :=
  match ev with
  | Completed idx p => retain idx p acc
  | Failed _ => acc
  end.

(** Modelled from the spec: the retained set after the fetches of a query
    session, which starts empty; [evs] has the fetches in the order in which
    they completed. *)
Definition session (evs : list Event) : list Entry := foldl step [] evs.

(** The live pages of one page index. *)
Definition live (idx : nat) (acc : list Entry) : list TracePage :=
  page <$> filter (λ e, index e = idx) acc.

(** What [select] is handed: the retained pages in page-index order. *)
Definition data (acc : list Entry) : InfiniteData TracePage :=
  {| pages := page <$> acc |}.

End Accumulator.

(** ** Sample data *)

Definition trace_page (recs : list Span) : TracePage :=
  {| spans := Some recs; pagination := Some {| hasMore := Some false |} |}.
Definition run_page (recs : list Run) : RunPage := {| runs := Some recs |}.

Definition span_a : Span := makeSpan "a" "Alpha".
Definition span_b : Span := makeSpan "b" "Bravo".
Definition span_c : Span := makeSpan "c" "Charlie".
Definition span_d : Span := makeSpan "d" "Delta".
Definition span_e : Span := makeSpan "e" "Echo".
Definition page_abc : TracePage := trace_page [span_a; span_b; span_c].
Definition five : list Span := [span_a; span_b; span_c; span_d; span_e].

(** ** The requests of the runs hook *)

Module RunsQuery.

(** The argument of [client.getWorkflow(workflowId).runs]. *)
Record Params : Type := { limit : Z; offset : Z }.

Definition initialPageParam : Z := 0.

(** What [queryFn] asks the client for, for one page parameter. *)
Definition queryFn (pageParam : Z) : Params :=
  {| limit := Z.of_nat Runs.PER_PAGE;
     offset := (pageParam * Z.of_nat Runs.PER_PAGE)%Z |}.

(** The positions of the run list that a request covers. *)
Definition covers (params : Params) (position : Z) : Prop :=
  (offset params ≤ position < offset params + limit params)%Z.

End RunsQuery.

(** ** The other hooks of use-workflow-runs.ts *)

Module WorkflowRun.

(** [a && b] on strings: the first operand when it is falsy, the second
    otherwise; the empty string is the one falsy string. *)
Definition and_then (a b : string) : string :=
  if decide (a = "") then a else b.

(** [Boolean(s)] on a string. *)
Definition Boolean (s : string) : bool := negb (bool_decide (s = "")).

(** The [enabled] option of [useWorkflowRun]. *)
Definition enabled (workflowId runId : string) : bool :=
  Boolean (and_then workflowId runId).







End WorkflowRun.

(** ** Facts about the pure projection *)

Section first_seen_facts.
Context {A : Type} (key : A → string).
Implicit Types (seen : gset string) (l : list A) (k : string).

Lemma fresh_keys_app seen l1 l2 :
  fresh_keys key seen (l1 ++ l2)
  = fresh_keys key seen l1 ++ fresh_keys key (keys_of key l1 ∪ seen) l2.
Proof.
  revert seen. induction l1 as [|x l1 IH]; intros seen; simpl.
  - f_equal. unfold keys_of. simpl. set_solver.
  - unfold keys_of in *. case_decide as Hx; rewrite IH; simpl.
    + do 2 f_equal. set_solver.
    + do 3 f_equal. set_solver.
Qed.

Lemma fresh_keys_elem seen l x :
  x ∈ fresh_keys key seen l → x ∈ l ∧ key x ∉ seen.
Proof.
  revert seen. induction l as [|y l IH]; intros seen; simpl.
  - by intros ?%elem_of_nil.
  - case_decide as Hy.
    + intros [??]%IH. split; [by right|done].
    + intros [->|[??]%IH]%elem_of_cons; [split; [by left|done]|].
      split; [by right|set_solver].
Qed.

Lemma fresh_keys_NoDup seen l : NoDup (key <$> fresh_keys key seen l).
Proof.
  revert seen. induction l as [|y l IH]; intros seen; simpl; [constructor|].
  case_decide as Hy; [done|]. rewrite fmap_cons. constructor; [|done].
  intros (z & Hz & [_ Hin]%fresh_keys_elem)%list_elem_of_fmap. set_solver.
Qed.

Lemma fresh_keys_keys seen l :
  keys_of key (fresh_keys key seen l) = keys_of key l ∖ seen.
Proof.
  revert seen. unfold keys_of. induction l as [|y l IH]; intros seen; simpl.
  - set_solver.
  - case_decide as Hy; simpl; rewrite IH; [set_solver|].
    apply set_eq. intros k. destruct (decide (k = key y)); set_solver.
Qed.

(** A tail all of whose identifiers were met contributes nothing. *)
Lemma fresh_keys_seen seen l : keys_of key l ⊆ seen → fresh_keys key seen l = [].
Proof.
  unfold keys_of. induction l as [|y l IH]; simpl; [done|].
  intros Hsub. case_decide; [|set_solver]. apply IH. set_solver.
Qed.

(** Records with distinct, new identifiers are all kept. *)
Lemma fresh_keys_all seen l :
  NoDup (key <$> l) → keys_of key l ## seen → fresh_keys key seen l = l.
Proof.
  unfold keys_of. revert seen. induction l as [|y l IH]; intros seen; simpl; [done|].
  rewrite NoDup_cons. intros [Hy Hl] Hdisj.
  case_decide; [set_solver|]. f_equal. apply IH; [done|].
  intros k Hk Hk'. apply elem_of_union in Hk' as [->%elem_of_singleton|?].
  - apply Hy. by apply elem_of_list_to_set in Hk.
  - set_solver.
Qed.

Lemma first_seen_length l : length (first_seen key l) = size (keys_of key l).
Proof.
  unfold first_seen.
  rewrite <-(length_fmap key), <-(size_list_to_set (C:=gset string)).
  - fold (keys_of key (fresh_keys key ∅ l)). rewrite fresh_keys_keys. f_equal. set_solver.
  - apply fresh_keys_NoDup.
Qed.

Lemma fresh_keys_equiv seen seen' l :
  (∀ k, k ∈ seen ↔ k ∈ seen') → fresh_keys key seen l = fresh_keys key seen' l.
Proof. intros H. by apply set_eq in H as ->. Qed.

(** [first_seen] is the reading "first occurrence of each identifier". *)
Lemma fresh_keys_occurrences pre suf :
  fresh_keys key (keys_of key pre) suf
  = omap (λ i, x ← (pre ++ suf) !! i;
               if decide (key x ∈ key <$> take i (pre ++ suf)) then None else Some x)
         (seq (length pre) (length suf)).
Proof.
  revert pre. induction suf as [|x suf IH]; intros pre; [done|].
  assert (fresh_keys key ({[key x]} ∪ keys_of key pre) suf
          = fresh_keys key (keys_of key (pre ++ [x])) suf) as Hstep.
  { apply fresh_keys_equiv. unfold keys_of. intros k. rewrite fmap_app. set_solver. }
  assert (key x ∈ keys_of key pre →
          fresh_keys key (keys_of key pre) suf
          = fresh_keys key (keys_of key (pre ++ [x])) suf) as Hskip.
  { intros Hin. apply fresh_keys_equiv. unfold keys_of in *. intros k.
    rewrite fmap_app. set_solver. }
  specialize (IH (pre ++ [x])). rewrite <-(assoc_L (++)) in IH. simpl in IH.
  rewrite length_app in IH. simpl in IH. rewrite Nat.add_1_r in IH.
  cbn [fresh_keys length seq omap list_omap].
  rewrite list_lookup_middle by done. simpl.
  rewrite take_app_length.
  destruct (decide (key x ∈ keys_of key pre)) as [Hin|Hin];
    destruct (decide (key x ∈ key <$> pre)) as [Hin'|Hin'];
    unfold keys_of in Hin; try (exfalso; set_solver).
  - rewrite Hskip by done. apply IH.
  - rewrite Hstep. f_equal. apply IH.
Qed.

Lemma first_seen_occurrences l : first_seen key l = first_occurrences key l.
Proof. apply (fresh_keys_occurrences []). Qed.

(** Among the kept records, an identifier selects the first record of the
    input that carries it, and nothing when it was met before. *)
Lemma matching_fresh_keys seen l k :
  matching key k (fresh_keys key seen l)
  = if decide (k ∈ seen) then [] else option_list (head (matching key k l)).
Proof.
  unfold matching. revert seen. induction l as [|y l IH]; intros seen; simpl.
  - by case_decide.
  - destruct (decide (key y ∈ seen)) as [Hy|Hy].
    + rewrite IH. rewrite filter_cons. destruct (decide (k ∈ seen)); [done|].
      destruct (decide (key y = k)) as [<-|?]; [done|reflexivity].
    + rewrite !filter_cons, IH. destruct (decide (key y = k)) as [Hk|Hne].
      * subst k. rewrite decide_True by set_solver. by rewrite decide_False by done.
      * destruct (decide (k ∈ seen)); case_decide; set_solver.
Qed.

Lemma matching_first_seen l k :
  matching key k (first_seen key l) = option_list (head (matching key k l)).
Proof. unfold first_seen. rewrite matching_fresh_keys. by case_decide. Qed.

Lemma matching_length_NoDup l k : NoDup (key <$> l) → length (matching key k l) ≤ 1.
Proof.
  unfold matching. induction l as [|y l IH]; simpl; [lia|].
  rewrite NoDup_cons. intros [Hy Hl]. rewrite filter_cons.
  case_decide as Hk; [|by apply IH]. simpl.
  destruct (filter (λ x, key x = k) l) as [|z t] eqn:Hf; [simpl; lia|].
  exfalso. assert (z ∈ filter (λ x, key x = k) l) as Hz by (rewrite Hf; left).
  apply list_elem_of_filter in Hz as [Hzk Hz]. apply Hy.
  rewrite Hk, <-Hzk. by apply list_elem_of_fmap_2.
Qed.

End first_seen_facts.

(** ** The store-passing [filter] computes [fresh_keys] *)

Section filter_unseen.
Context {A B : Type} (key : B → string) (inj : B → A) (cb : ref → A → JS bool).

(** What a callback does to the set it is closed over. *)
Hypothesis cb_spec : ∀ seen x (σ : store) S,
  σ !! seen = Some S →
  cb seen (inj x) σ
  = Normal (bool_decide (key x ∉ S),
            if decide (key x ∈ S) then σ else <[seen := {[key x]} ∪ S]> σ).

Lemma Array_filter_fresh_keys seen l (σ : store) S :
  σ !! seen = Some S →
  ∃ σ', Array_filter (cb seen) (inj <$> l) σ
        = Normal (inj <$> fresh_keys key S l, σ').
Proof.
  revert σ S. induction l as [|x l IH]; intros σ S Hσ.
  - by eexists.
  - rewrite fmap_cons. cbn [Array_filter fresh_keys]. unfold mbind, JS_bind.
    rewrite (cb_spec _ _ _ _ Hσ).
    destruct (decide (key x ∈ S)) as [Hx|Hx].
    + destruct (IH σ S Hσ) as [σ' Hσ']. rewrite bool_decide_false by tauto.
      rewrite Hσ'. by eexists.
    + destruct (IH (<[seen := {[key x]} ∪ S]> σ) ({[key x]} ∪ S)) as [σ' Hσ'];
        [by rewrite lookup_insert_eq|].
      rewrite bool_decide_true by done. rewrite Hσ'. by eexists.
Qed.

End filter_unseen.

Lemma Traces_unseen_spec seen span (σ : store) S :
  σ !! seen = Some S →
  Traces.unseen seen span σ
  = Normal (bool_decide (traceId span ∉ S),
            if decide (traceId span ∈ S) then σ else <[seen := {[traceId span]} ∪ S]> σ).
Proof.
  intros Hσ. unfold Traces.unseen, mbind, JS_bind, Set_has, Set_add. rewrite Hσ.
  destruct (decide (traceId span ∈ S)) as [Hin|Hin].
  - rewrite bool_decide_true by done. by rewrite bool_decide_false by tauto.
  - rewrite bool_decide_false by done. rewrite Hσ. by rewrite bool_decide_true by done.
Qed.

Lemma Runs_unseen_spec seen run (σ : store) S :
  σ !! seen = Some S →
  Runs.unseen seen (Some run) σ
  = Normal (bool_decide (runId run ∉ S),
            if decide (runId run ∈ S) then σ else <[seen := {[runId run]} ∪ S]> σ).
Proof.
  intros Hσ. unfold Runs.unseen, mbind, JS_bind, Set_has, Set_add. simpl. rewrite Hσ.
  destruct (decide (runId run ∈ S)) as [Hin|Hin].
  - rewrite bool_decide_true by done. by rewrite bool_decide_false by tauto.
  - rewrite bool_decide_false by done. rewrite Hσ. by rewrite bool_decide_true by done.
Qed.

(** An [undefined] element makes the callback of the runs hook throw. *)
Lemma Runs_filter_undefined seen l (σ : store) S :
  σ !! seen = Some S → None ∈ l →
  Array_filter (Runs.unseen seen) l σ = Throw TypeError.
Proof.
  revert σ S. induction l as [|x l IH]; intros σ S Hσ Hin.
  - by apply elem_of_nil in Hin.
  - simpl. unfold mbind at 1. unfold JS_bind. destruct x as [r|]; [|done].
    rewrite (Runs_unseen_spec _ _ _ _ Hσ).
    apply elem_of_cons in Hin as [?|Hin]; [done|].
    unfold mbind, JS_bind.
    destruct (decide (runId r ∈ S)).
    + by rewrite (IH σ S).
    + by rewrite (IH _ ({[runId r]} ∪ S)) by (by rewrite lookup_insert_eq || done).
Qed.

Lemma new_Set_lookup (σ : store) :
  <[fresh (dom σ) := ∅]> σ !! fresh (dom σ) = Some (∅ : gset string).
Proof. apply lookup_insert_eq. Qed.

(** The traces projection returns, on every store, the first record of each
    identifier. *)
Lemma Traces_select_outcome data (σ : store) :
  outcome (Traces.select data) σ = Normal (first_seen traceId (Traces.records data)).
Proof.
  destruct (Array_filter_fresh_keys traceId id Traces.unseen Traces_unseen_spec
              (fresh (dom σ)) (Traces.records data) _ ∅ (new_Set_lookup σ)) as [σ' Hσ'].
  rewrite !list_fmap_id in Hσ'.
  unfold outcome.
  change (Traces.select data σ)
    with (Array_filter (Traces.unseen (fresh (dom σ))) (Traces.records data)
            (<[fresh (dom σ) := ∅]> σ)).
  by rewrite Hσ'.
Qed.

Lemma Runs_flatMap_well_typed data :
  Runs.well_typed data →
  Array_flatMap (λ page, spread (runs page)) (pages data) = Some <$> Runs.records data.
Proof.
  destruct data as [ps]. unfold Runs.well_typed, Runs.records, Array_flatMap.
  cbn [pages]. induction 1 as [|page ps [rs Hrs] _ IH]; [done|].
  rewrite !fmap_cons. cbn [mjoin list_join]. rewrite fmap_app, Hrs.
  cbn [spread default from_option id]. f_equal. apply IH.
Qed.

Lemma Runs_flatMap_undefined data :
  ¬ Runs.well_typed data →
  None ∈ Array_flatMap (λ page, spread (runs page)) (pages data).
Proof.
  destruct data as [ps]. unfold Runs.well_typed, Array_flatMap. cbn [pages]. intros H.
  apply not_Forall_Exists in H; [|by apply _].
  induction H as [page ps Hp|page ps _ IH];
    rewrite fmap_cons; cbn [mjoin list_join]; apply elem_of_app.
  - left. destruct (runs page) eqn:E; [|apply list_elem_of_here].
    exfalso. apply Hp. simpl. rewrite E. by eexists.
  - by right.
Qed.

(** The runs projection, on pages as their type has them. *)
Lemma Runs_select_outcome data (σ : store) :
  Runs.well_typed data →
  outcome (Runs.select data) σ = Normal (Some <$> first_seen runId (Runs.records data)).
Proof.
  intros Hty.
  destruct (Array_filter_fresh_keys runId Some Runs.unseen Runs_unseen_spec
              (fresh (dom σ)) (Runs.records data) _ ∅ (new_Set_lookup σ)) as [σ' Hσ'].
  rewrite <-(Runs_flatMap_well_typed _ Hty) in Hσ'.
  unfold outcome.
  change (Runs.select data σ)
    with (Array_filter (Runs.unseen (fresh (dom σ)))
            (Array_flatMap (λ page, spread (runs page)) (pages data))
            (<[fresh (dom σ) := ∅]> σ)).
  by rewrite Hσ'.
Qed.

(** The runs projection, when some page has no [runs]. *)
Lemma Runs_select_throws data (σ : store) :
  ¬ Runs.well_typed data → outcome (Runs.select data) σ = Throw TypeError.
Proof.
  intros Hty. unfold outcome.
  change (Runs.select data σ)
    with (Array_filter (Runs.unseen (fresh (dom σ)))
            (Array_flatMap (λ page, spread (runs page)) (pages data))
            (<[fresh (dom σ) := ∅]> σ)).
  by rewrite (Runs_filter_undefined _ _ _ ∅ (new_Set_lookup σ) (Runs_flatMap_undefined _ Hty)).
Qed.

Lemma run_Traces_select data :
  run (Traces.select data) = Normal (first_seen traceId (Traces.records data)).
Proof. apply Traces_select_outcome. Qed.

Lemma run_Runs_select data :
  Runs.well_typed data →
  run (Runs.select data) = Normal (Some <$> first_seen runId (Runs.records data)).
Proof. apply Runs_select_outcome. Qed.

Lemma run_Runs_select_throws data :
  ¬ Runs.well_typed data → run (Runs.select data) = Throw TypeError.
Proof. apply Runs_select_throws. Qed.

(** ** Pages and their records *)

Section pages_facts.
Context {A : Type} (key : A → string).
Implicit Types (l : list A) (ls : list (list A)) (k : string).

Lemma keys_of_app l1 l2 : keys_of key (l1 ++ l2) = keys_of key l1 ∪ keys_of key l2.
Proof. unfold keys_of. rewrite fmap_app. set_solver. Qed.

Lemma elem_of_keys_of l k : k ∈ keys_of key l ↔ ∃ x, x ∈ l ∧ key x = k.
Proof.
  unfold keys_of. rewrite elem_of_list_to_set, list_elem_of_fmap. naive_solver.
Qed.

Lemma first_seen_app_seen l1 l2 :
  keys_of key l2 ⊆ keys_of key l1 → first_seen key (l1 ++ l2) = first_seen key l1.
Proof.
  intros Hsub. unfold first_seen. rewrite fresh_keys_app.
  rewrite (fresh_keys_seen key _ l2) by set_solver. apply app_nil_r.
Qed.

Lemma first_seen_distinct l : NoDup (key <$> l) → first_seen key l = l.
Proof. intros Hl. apply fresh_keys_all; [done|set_solver]. Qed.

Lemma matching_nil_iff l k : matching key k l = [] ↔ k ∉ keys_of key l.
Proof.
  rewrite elem_of_keys_of. unfold matching. split.
  - intros Hnil (x & Hx & Hk). by apply (filter_nil_not_elem_of _ _ x Hnil).
  - intros Hk. destruct (filter _ l) as [|x t] eqn:Hf; [done|]. exfalso. apply Hk.
    assert (x ∈ filter (λ x, key x = k) l) as Hx by (rewrite Hf; left).
    apply list_elem_of_filter in Hx. naive_solver.
Qed.

Lemma matching_head l k : k ∈ keys_of key l → is_Some (head (matching key k l)).
Proof.
  intros Hk. destruct (matching key k l) eqn:Hm; [|by eexists].
  by apply matching_nil_iff in Hm.
Qed.

Lemma matching_distinct l x :
  NoDup (key <$> l) → x ∈ l → matching key (key x) l = [x].
Proof.
  intros Hl Hx. pose proof (matching_length_NoDup key l (key x) Hl) as Hlen.
  assert (x ∈ matching key (key x) l) as Hin by (by apply list_elem_of_filter).
  destruct (matching key (key x) l) as [|y [|z t]]; simpl in Hlen.
  - by apply elem_of_nil in Hin.
  - by apply list_elem_of_singleton in Hin as ->.
  - lia.
Qed.

(** The first record of an identifier in the concatenation of the pages is
    the first one in the earliest page that carries the identifier. *)
Lemma head_matching_mjoin ls k i l :
  ls !! i = Some l → k ∈ keys_of key l →
  ∃ e le x,
    e ≤ i ∧ ls !! e = Some le
    ∧ (∀ e' l', e' < e → ls !! e' = Some l' → k ∉ keys_of key l')
    ∧ head (matching key k le) = Some x
    ∧ head (matching key k (mjoin ls)) = Some x.
Proof.
  revert i. induction ls as [|l0 ls IH]; intros i Hi Hk; [done|].
  destruct (decide (k ∈ keys_of key l0)) as [Hk0|Hk0].
  - destruct (matching_head _ _ Hk0) as [x Hx].
    exists 0, l0, x. split; [lia|]. split; [done|]. split; [intros; lia|].
    split; [done|]. cbn [mjoin list_join]. unfold matching in *.
    rewrite filter_app. by destruct (filter _ l0).
  - destruct i as [|i]; [by injection Hi as ->|]. simpl in Hi.
    destruct (IH i Hi Hk) as (e & le & x & He & Hle & Hbefore & Hx & Hhead).
    exists (S e), le, x. split; [lia|]. split; [done|]. split.
    + intros [|e'] l' He' Hl'; [by injection Hl' as <-|].
      simpl in Hl'. apply (Hbefore e'); [lia|done].
    + split; [done|]. cbn [mjoin list_join]. unfold matching in *.
      rewrite filter_app. apply matching_nil_iff in Hk0. unfold matching in Hk0.
      by rewrite Hk0.
Qed.

(** Pairwise disjoint pages without inner repetition concatenate to a list
    without repetition. *)
Lemma pairwise_disjoint_cons (s : gset string) sets :
  pairwise_disjoint (s :: sets) →
  Forall (λ t, s ## t) sets ∧ pairwise_disjoint sets.
Proof.
  intros Hd. split.
  - apply Forall_lookup. intros j t Ht. by apply (Hd 0 (S j)).
  - intros i j u t Hij Hu Ht. apply (Hd (S i) (S j)); [lia|done..].
Qed.

Lemma NoDup_keys_mjoin ls :
  pairwise_disjoint (keys_of key <$> ls) → distinct_within key ls →
  NoDup (key <$> mjoin ls).
Proof.
  unfold distinct_within. induction ls as [|l0 ls IH]; [constructor|].
  rewrite fmap_cons. intros [Hhead Htail]%pairwise_disjoint_cons.
  rewrite Forall_cons. intros [Hl0 Hls]. cbn [mjoin list_join].
  rewrite fmap_app. apply NoDup_app. split; [done|]. split; [|by apply IH].
  intros k Hk0 (x & Hkx & Hx)%list_elem_of_fmap.
  apply list_elem_of_join in Hx as (l & Hxl & Hl).
  apply list_elem_of_lookup in Hl as [j Hj].
  rewrite Forall_lookup in Hhead.
  assert (keys_of key l0 ## keys_of key l) as Hdisj
    by (apply (Hhead j); by rewrite list_lookup_fmap, Hj).
  apply (Hdisj k).
  - unfold keys_of. by apply elem_of_list_to_set.
  - apply elem_of_keys_of. eauto.
Qed.

(** Renaming the records does not change which of them are kept. *)
Lemma fresh_keys_fmap {B : Type} (key' : B → string) (f : A → B) seen l :
  (∀ x, key' (f x) = key x) →
  fresh_keys key' seen (f <$> l) = f <$> fresh_keys key seen l.
Proof.
  intros Hf. revert seen. induction l as [|x l IH]; intros seen; [done|].
  rewrite fmap_cons. cbn [fresh_keys]. rewrite Hf.
  case_decide; [apply IH|]. rewrite fmap_cons. f_equal. apply IH.
Qed.

End pages_facts.

Lemma Traces_records_app ps1 ps2 :
  Traces.records {| pages := ps1 ++ ps2 |}
  = Traces.records {| pages := ps1 |} ++ Traces.records {| pages := ps2 |}.
Proof. unfold Traces.records. cbn [pages]. by rewrite fmap_app, join_app. Qed.

Lemma Runs_records_app ps1 ps2 :
  Runs.records {| pages := ps1 ++ ps2 |}
  = Runs.records {| pages := ps1 |} ++ Runs.records {| pages := ps2 |}.
Proof. unfold Runs.records. cbn [pages]. by rewrite fmap_app, join_app. Qed.

Lemma Traces_records_replicate n page recs :
  spans page = Some recs →
  Traces.records {| pages := replicate n page |} = mjoin (replicate n recs).
Proof.
  intros Hp. unfold Traces.records. cbn [pages]. rewrite fmap_replicate.
  by rewrite Hp.
Qed.

Lemma keys_of_replicate {A : Type} (key : A → string) n (l : list A) :
  keys_of key (mjoin (replicate n l)) ⊆ keys_of key l.
Proof.
  induction n as [|n IH]; [set_solver|].
  cbn [replicate mjoin list_join]. rewrite keys_of_app. set_solver.
Qed.

(** ** Properties of the two hooks *)

(** C2: the list either [select] returns holds no two records with the same
    identifier, so an identifier matches at most one of its records.  The
    traces [select] returns on every input; the runs [select] returns on every
    input of its page type, and whatever it returns has the property. *)
Theorem select_no_duplicate_identifier :
  (∀ data : InfiniteData TracePage,
     ∃ out, run (Traces.select data) = Normal out
            ∧ NoDup (traceId <$> out)
            ∧ ∀ k, length (matching traceId k out) ≤ 1)
  ∧ (∀ data : InfiniteData RunPage,
       Runs.well_typed data → ∃ out, run (Runs.select data) = Normal out)
  ∧ (∀ (data : InfiniteData RunPage) out,
       run (Runs.select data) = Normal out →
       ∃ recs, out = Some <$> recs
               ∧ NoDup (runId <$> recs)
               ∧ ∀ k, length (matching runId k recs) ≤ 1).
Proof.
  split; [|split].
  - intros data. eexists. split; [apply run_Traces_select|].
    split; [apply fresh_keys_NoDup|].
    intros k. apply matching_length_NoDup, fresh_keys_NoDup.
  - intros data Hty. eexists. by apply run_Runs_select.
  - intros data out Hout. destruct (decide (Runs.well_typed data)) as [Hty|Hty].
    + rewrite (run_Runs_select _ Hty) in Hout. injection Hout as <-.
      eexists. split; [done|]. split; [apply fresh_keys_NoDup|].
      intros k. apply matching_length_NoDup, fresh_keys_NoDup.
    + by rewrite (run_Runs_select_throws _ Hty) in Hout.
Qed.

(** On a page of the runs hook that holds one identifier twice. *)
Lemma select_no_duplicate_identifier_witness :
  (∃ out, run (Runs.select
                 {| pages := [run_page [makeRun "r1" "one"; makeRun "r1" "again"]] |})
          = Normal out)
  ∧ ∃ recs, [Some (makeRun "r1" "one")] = Some <$> recs
            ∧ NoDup (runId <$> recs)
            ∧ ∀ k, length (matching runId k recs) ≤ 1.
Proof.
  destruct select_no_duplicate_identifier as (_ & Htotal & Hnodup). split.
  - apply Htotal. by repeat constructor.
  - apply (Hnodup {| pages := [run_page [makeRun "r1" "one"; makeRun "r1" "again"]] |}).
    by vm_compute.
Defined.

Lemma outcome_Normal_inv {A : Type} (m : JS A) (σ : store) a :
  outcome m σ = Normal a → ∃ σ', m σ = Normal (a, σ').
Proof.
  unfold outcome. destruct (m σ) as [[a' σ']|e]; [|done].
  intros [= ->]. by eexists.
Qed.

Lemma Runs_select_outcome_run data (σ : store) :
  outcome (Runs.select data) σ = run (Runs.select data).
Proof.
  destruct (decide (Runs.well_typed data)) as [Hty|Hty].
  - by rewrite run_Runs_select, Runs_select_outcome.
  - by rewrite run_Runs_select_throws, Runs_select_throws.
Qed.

(** C8: the projection is a function of the retained pages alone.  Two
    invocations on equal page sequences end the same way, with equal lists in
    the same order, whatever [Set] objects the store holds when each starts;
    in particular an invocation that follows another one, on the store the
    first one left, repeats its result. *)
Theorem select_deterministic :
  (∀ (data1 data2 : InfiniteData TracePage) (σ1 σ2 : store),
     data1 = data2 →
     outcome (Traces.select data1) σ1 = outcome (Traces.select data2) σ2)
  ∧ (∀ (data1 data2 : InfiniteData RunPage) (σ1 σ2 : store),
       data1 = data2 →
       outcome (Runs.select data1) σ1 = outcome (Runs.select data2) σ2)
  ∧ (∀ (data : InfiniteData TracePage) (σ : store),
       ∃ out σ', Traces.select data σ = Normal (out, σ')
                 ∧ outcome (Traces.select data) σ' = Normal out)
  ∧ (∀ (data : InfiniteData RunPage) (σ σ' : store) out,
       Runs.select data σ = Normal (out, σ') →
       outcome (Runs.select data) σ' = Normal out).
Proof.
  repeat split.
  - intros data1 data2 σ1 σ2 <-. by rewrite !Traces_select_outcome.
  - intros data1 data2 σ1 σ2 <-. by rewrite !Runs_select_outcome_run.
  - intros data σ.
    destruct (outcome_Normal_inv _ _ _ (Traces_select_outcome data σ)) as [σ' Hσ'].
    eexists _, σ'. split; [done|]. apply Traces_select_outcome.
  - intros data σ σ' out Hsel.
    rewrite Runs_select_outcome_run, <-(Runs_select_outcome_run data σ).
    unfold outcome. by rewrite Hsel.
Qed.

(** On two stores, and on the store a first invocation leaves. *)
Lemma select_deterministic_witness :
  outcome (Traces.select {| pages := [page_abc; page_abc] |}) ∅
  = outcome (Traces.select {| pages := [page_abc; page_abc] |}) {[ 1%positive := {["a"]} ]}
  ∧ outcome (Runs.select {| pages := [run_page [makeRun "r1" "one"]] |}) ∅
    = outcome (Runs.select {| pages := [run_page [makeRun "r1" "one"]] |})
        {[ 1%positive := {["r1"]} ]}
  ∧ Runs.select {| pages := [run_page [makeRun "r1" "one"]] |} ∅
    = Normal ([Some (makeRun "r1" "one")], {[ 1%positive := {["r1"]} ]})
  ∧ outcome (Runs.select {| pages := [run_page [makeRun "r1" "one"]] |})
      {[ 1%positive := {["r1"]} ]}
    = Normal [Some (makeRun "r1" "one")].
Proof.
  destruct select_deterministic as (Htraces & Hruns & _ & Hagain).
  split; [by apply Htraces|]. split; [by apply Hruns|].
  split; [by vm_compute|]. apply (Hagain _ ∅). by vm_compute.
Defined.

(** C7: each hook asks for a further page exactly when the last page says
    more data exists: the traces hook when [pagination.hasMore] is true, the
    runs hook when the page holds at least [PER_PAGE] = 20 runs; the page
    asked for is [lastPageParam + 1], and otherwise the result is
    [undefined]. *)
Theorem getNextPageParam_iff_more :
  (∀ (lastPage : option TracePage) (allPages : list TracePage) (lastPageParam : Z),
     (Traces.getNextPageParam lastPage allPages lastPageParam
      = Normal (Some (lastPageParam + 1)%Z)
      ↔ has_more lastPage)
     ∧ (¬ has_more lastPage →
        Traces.getNextPageParam lastPage allPages lastPageParam = Normal None))
  ∧ (∀ (recs : list Run) (allPages : list RunPage) (lastPageParam : Z),
       (Runs.getNextPageParam {| runs := Some recs |} allPages lastPageParam
        = Normal (Some (lastPageParam + 1)%Z)
        ↔ Runs.PER_PAGE ≤ length recs)
       ∧ (¬ Runs.PER_PAGE ≤ length recs →
          Runs.getNextPageParam {| runs := Some recs |} allPages lastPageParam
          = Normal None))
  ∧ Runs.PER_PAGE = 20.
Proof.
  split; [|split; [|done]].
  - intros lastPage allPages n. unfold Traces.getNextPageParam, has_more.
    destruct lastPage as [[sp [[[[]|]]|]]|]; simpl; (split; [split|]);
      try done; try naive_solver.
  - intros recs allPages n. unfold Runs.getNextPageParam. simpl.
    unfold mbind, completion_bind. case_bool_decide; (split; [split|]);
      try done; try lia.
Qed.

(** On a page without pagination, one with more data, a short page and a
    full page of runs. *)
Lemma getNextPageParam_iff_more_witness :
  Traces.getNextPageParam (Some {| spans := Some []; pagination := None |}) [] 2
  = Normal None
  ∧ Traces.getNextPageParam
      (Some {| spans := Some []; pagination := Some {| hasMore := Some true |} |}) [] 2
    = Normal (Some 3%Z)
  ∧ Runs.getNextPageParam {| runs := Some [makeRun "r1" "one"] |} [] 0 = Normal None
  ∧ Runs.getNextPageParam {| runs := Some (replicate 20 (makeRun "r1" "one")) |} [] 3
    = Normal (Some 4%Z).
Proof.
  destruct getNextPageParam_iff_more as (Htraces & Hruns & _).
  split; [|split; [|split]].
  - apply Htraces. unfold has_more. by intros (page & pg & [= <-] & ? & _).
  - apply (Htraces _ [] 2%Z). unfold has_more. by eexists _, _.
  - apply Hruns. vm_compute. lia.
  - apply (Hruns (replicate 20 (makeRun "r1" "one")) [] 3%Z). vm_compute. lia.
Defined.

(** C10: in the traces hook [getNextPageParam] never throws, and it returns
    [undefined] when the last page is [undefined], when it has no
    [pagination], and when [hasMore] is missing or false. *)
Theorem Traces_getNextPageParam_total :
  (∀ (lastPage : option TracePage) (allPages : list TracePage) (lastPageParam : Z),
     ∃ next, Traces.getNextPageParam lastPage allPages lastPageParam = Normal next)
  ∧ (∀ (lastPage : option TracePage) (allPages : list TracePage) (lastPageParam : Z),
       lastPage = None
       ∨ (∃ page, lastPage = Some page ∧ pagination page = None)
       ∨ (∃ page pg, lastPage = Some page ∧ pagination page = Some pg
                     ∧ (hasMore pg = None ∨ hasMore pg = Some false)) →
       Traces.getNextPageParam lastPage allPages lastPageParam = Normal None).
Proof.
  split.
  - intros lastPage allPages n. unfold Traces.getNextPageParam.
    destruct (truthy _); by eexists.
  - intros lastPage allPages n. unfold Traces.getNextPageParam.
    intros [->|[(page & -> & Hp)|(page & pg & -> & Hp & [Hm|Hm])]]; simpl.
    + done.
    + by rewrite Hp.
    + rewrite Hp. simpl. by rewrite Hm.
    + rewrite Hp. simpl. by rewrite Hm.
Qed.

(** The four cases of the tests of the hook. *)
Lemma Traces_getNextPageParam_total_witness :
  Traces.getNextPageParam None [] 0 = Normal None
  ∧ Traces.getNextPageParam (Some {| spans := None; pagination := None |}) [] 0
    = Normal None
  ∧ Traces.getNextPageParam
      (Some {| spans := None; pagination := Some {| hasMore := None |} |}) [] 7
    = Normal None
  ∧ Traces.getNextPageParam (Some page_abc) [page_abc] 7 = Normal None.
Proof.
  destruct Traces_getNextPageParam_total as [_ Hundef].
  split; [|split; [|split]]; apply Hundef.
  - by left.
  - right; left. by eexists.
  - right; right. eexists _, _. split; [done|]. split; [done|]. by left.
  - right; right. eexists _, _. split; [done|]. split; [done|]. by right.
Defined.

(** C3: a further page whose identifiers all occur in the earlier pages
    leaves the projection as it was; any number [n >= 1] of copies of one
    page of records with distinct identifiers (five, say) projects to exactly
    those records, each identifier once; and the projection is never longer
    than the number of distinct identifiers in the pages. *)
Theorem select_refetch_idempotent :
  (∀ (ps : list TracePage) (page : TracePage),
     span_ids page ⊆ keys_of traceId (Traces.records {| pages := ps |}) →
     run (Traces.select {| pages := ps ++ [page] |})
     = run (Traces.select {| pages := ps |}))
  ∧ (∀ (n : nat) (page : TracePage) (recs : list Span),
       1 ≤ n → spans page = Some recs → NoDup (traceId <$> recs) →
       run (Traces.select {| pages := replicate n page |}) = Normal recs
       ∧ ∀ r, r ∈ recs → matching traceId (traceId r) recs = [r])
  ∧ (∀ data : InfiniteData TracePage,
       ∃ out, run (Traces.select data) = Normal out
              ∧ length out ≤ size (keys_of traceId (Traces.records data))).
Proof.
  split; [|split].
  - intros ps page Hsub. rewrite !run_Traces_select. f_equal.
    rewrite Traces_records_app. apply first_seen_app_seen.
    unfold Traces.records at 1. cbn [pages fmap list_fmap mjoin list_join].
    by rewrite app_nil_r.
  - intros n page recs Hn Hp Hrecs. split; [|intros r Hr; by apply matching_distinct].
    rewrite run_Traces_select. f_equal.
    rewrite (Traces_records_replicate _ _ _ Hp).
    destruct n as [|n]; [lia|]. cbn [replicate mjoin list_join].
    rewrite first_seen_app_seen by apply keys_of_replicate.
    by apply first_seen_distinct.
  - intros data. eexists. split; [apply run_Traces_select|].
    by rewrite first_seen_length.
Qed.

(** Four fetches of one page of five records. *)
Lemma select_refetch_idempotent_witness :
  run (Traces.select {| pages := [trace_page five] ++ [page_abc] |})
  = run (Traces.select {| pages := [trace_page five] |})
  ∧ run (Traces.select {| pages := replicate 4 (trace_page five) |}) = Normal five
  ∧ length five = 5
  ∧ ∀ r, r ∈ five → matching traceId (traceId r) five = [r].
Proof.
  destruct select_refetch_idempotent as (Hmore & Hsame & _).
  split; [|split; [|split; [done|]]].
  - apply Hmore. apply (bool_decide_unpack _). by vm_compute.
  - apply (Hsame 4 (trace_page five) five); [lia|done|].
    apply (bool_decide_unpack _). by vm_compute.
  - apply (Hsame 4 (trace_page five) five); [lia|done|].
    apply (bool_decide_unpack _). by vm_compute.
Defined.

(** C4: when an identifier occurs in more than one page, the projection holds
    exactly one record for it: the first one of the earliest page that carries
    the identifier, with the payload it has there. *)
Theorem select_first_seen_wins (data : InfiniteData TracePage)
    (i j : nat) (p q : TracePage) (k : string) :
  i < j → pages data !! i = Some p → pages data !! j = Some q →
  k ∈ span_ids p → k ∈ span_ids q →
  ∃ (e : nat) (earliest : TracePage) (x : Span),
    e ≤ i ∧ pages data !! e = Some earliest
    ∧ (∀ e' p', e' < e → pages data !! e' = Some p' → k ∉ span_ids p')
    ∧ head (matching traceId k (default [] (spans earliest))) = Some x
    ∧ ∃ out, run (Traces.select data) = Normal out ∧ matching traceId k out = [x].
Proof.
  intros _ Hp _ Hk _.
  destruct (head_matching_mjoin traceId
              ((λ page, default [] (spans page)) <$> pages data) k i
              (default [] (spans p)))
    as (e & le & x & He & Hle & Hbefore & Hx & Hhead);
    [by rewrite list_lookup_fmap, Hp|done|].
  rewrite list_lookup_fmap in Hle.
  destruct (pages data !! e) as [earliest|] eqn:Hearliest; [|done].
  injection Hle as <-. exists e, earliest, x.
  split; [done|]. split; [done|]. split.
  - intros e' p' He' Hp'. apply (Hbefore e'); [done|].
    by rewrite list_lookup_fmap, Hp'.
  - split; [done|]. eexists. split; [apply run_Traces_select|].
    rewrite matching_first_seen. unfold Traces.records. by rewrite Hhead.
Qed.

(** Identifier "a" on page 0 and again on page 1. *)
Lemma select_first_seen_wins_witness :
  ∃ (e : nat) (earliest : TracePage) (x : Span),
    e ≤ 0
    ∧ [trace_page [makeSpan "a" "First"]; trace_page [makeSpan "a" "Stale"]] !! e
      = Some earliest
    ∧ (∀ e' p', e' < e →
         [trace_page [makeSpan "a" "First"]; trace_page [makeSpan "a" "Stale"]] !! e'
         = Some p' → "a" ∉ span_ids p')
    ∧ head (matching traceId "a" (default [] (spans earliest))) = Some x
    ∧ ∃ out,
        run (Traces.select
               {| pages := [trace_page [makeSpan "a" "First"];
                            trace_page [makeSpan "a" "Stale"]] |}) = Normal out
        ∧ matching traceId "a" out = [x].
Proof.
  apply (select_first_seen_wins
           {| pages := [trace_page [makeSpan "a" "First"];
                        trace_page [makeSpan "a" "Stale"]] |}
           0 1 (trace_page [makeSpan "a" "First"]) (trace_page [makeSpan "a" "Stale"]) "a");
    [lia|reflexivity|reflexivity|..]; apply (bool_decide_unpack _); by vm_compute.
Defined.

(** The test of the hook: the record of "a" keeps the name "First". *)
Example first_record_keeps_its_name :
  run (Traces.select
         {| pages := [trace_page [makeSpan "a" "First"];
                      trace_page [makeSpan "a" "Stale"]] |})
  = Normal [makeSpan "a" "First"].
Proof. by vm_compute. Qed.

(** C5, as stated, fails on a page that repeats an identifier within itself:
    the identifier sets of a single page are pairwise disjoint, and yet the
    projection of [[a; a']] drops the second record. *)
Lemma select_disjoint_concat_counterexample :
  pairwise_disjoint
    (span_ids <$> [trace_page [makeSpan "a" "First"; makeSpan "a" "Again"]])
  ∧ run (Traces.select
           {| pages := [trace_page [makeSpan "a" "First"; makeSpan "a" "Again"]] |})
    = Normal [makeSpan "a" "First"]
  ∧ run (Traces.select
           {| pages := [trace_page [makeSpan "a" "First"; makeSpan "a" "Again"]] |})
    ≠ Normal (Traces.records
                {| pages := [trace_page [makeSpan "a" "First"; makeSpan "a" "Again"]] |}).
Proof.
  split; [|split; [by vm_compute|by vm_compute]].
  intros [|i] [|j] s t Hij Hs Ht; done.
Qed.

(** C5, amended: when the identifier sets of the pages are pairwise disjoint
    and no page repeats an identifier within itself, the projection is the
    concatenation of the pages' records, pages in their order and each page's
    records in theirs.  For the runs hook the pages are those of its page
    type. *)
Theorem select_disjoint_concat :
  (∀ data : InfiniteData TracePage,
     pairwise_disjoint (span_ids <$> pages data) →
     distinct_within traceId ((λ page, default [] (spans page)) <$> pages data) →
     run (Traces.select data) = Normal (Traces.records data))
  ∧ (∀ data : InfiniteData RunPage,
       Runs.well_typed data →
       pairwise_disjoint (run_ids <$> pages data) →
       distinct_within runId ((λ page, default [] (runs page)) <$> pages data) →
       run (Runs.select data) = Normal (Some <$> Runs.records data)).
Proof.
  split.
  - intros data Hdisj Hdist. rewrite run_Traces_select. f_equal.
    apply first_seen_distinct, NoDup_keys_mjoin; [|done].
    by rewrite <-list_fmap_compose.
  - intros data Hty Hdisj Hdist. rewrite run_Runs_select by done. do 2 f_equal.
    apply first_seen_distinct, NoDup_keys_mjoin; [|done].
    by rewrite <-list_fmap_compose.
Qed.

(** Three pages of the traces hook, two of the runs hook. *)
Lemma select_disjoint_concat_witness :
  run (Traces.select
         {| pages := [page_abc; trace_page []; trace_page [span_d; span_e]] |})
  = Normal five
  ∧ run (Runs.select
           {| pages := [run_page [makeRun "r1" "one"; makeRun "r2" "two"];
                        run_page [makeRun "r3" "three"]] |})
    = Normal [Some (makeRun "r1" "one"); Some (makeRun "r2" "two");
              Some (makeRun "r3" "three")].
Proof.
  destruct select_disjoint_concat as [Htraces Hruns]. split.
  - apply (Htraces {| pages := [page_abc; trace_page []; trace_page [span_d; span_e]] |}).
    + intros i j s t Hij Hs Ht.
      destruct i as [|[|[|i]]]; destruct j as [|[|[|j]]]; try done;
        injection Hs as <-; injection Ht as <-;
        apply (bool_decide_unpack _); by vm_compute.
    + repeat constructor; apply (bool_decide_unpack _); by vm_compute.
  - apply (Hruns {| pages := [run_page [makeRun "r1" "one"; makeRun "r2" "two"];
                              run_page [makeRun "r3" "three"]] |}).
    + by repeat constructor.
    + intros i j s t Hij Hs Ht.
      destruct i as [|[|i]]; destruct j as [|[|j]]; try done;
        injection Hs as <-; injection Ht as <-;
        apply (bool_decide_unpack _); by vm_compute.
    + repeat constructor; apply (bool_decide_unpack _); by vm_compute.
Defined.

Lemma Traces_records_cons page ps :
  Traces.records {| pages := page :: ps |}
  = default [] (spans page) ++ Traces.records {| pages := ps |}.
Proof. done. Qed.

Lemma Runs_records_cons page ps :
  Runs.records {| pages := page :: ps |}
  = default [] (runs page) ++ Runs.records {| pages := ps |}.
Proof. done. Qed.

Lemma Runs_well_typed_middle pre post page :
  is_Some (runs page) →
  Runs.well_typed {| pages := pre ++ page :: post |}
  ↔ Runs.well_typed {| pages := pre ++ post |}.
Proof.
  intros Hp. unfold Runs.well_typed. cbn [pages].
  rewrite !Forall_app, Forall_cons. naive_solver.
Qed.

(** C6, as stated, fails in the runs hook: a page without [runs] puts
    [undefined] into the flattened array, and the filter callback throws a
    [TypeError] when it reads [run.runId]. *)
Lemma select_absent_records_counterexample :
  run (Runs.select {| pages := [{| runs := None |}] |}) = Throw TypeError
  ∧ ¬ ∃ out, run (Runs.select {| pages := [{| runs := None |}] |}) = Normal out.
Proof. split; [by vm_compute|]. by intros [out Hout]. Qed.

(** C6, amended: the traces projection never throws, and a page whose [spans]
    are absent or empty contributes nothing to it; in the runs projection a
    page whose [runs] are empty contributes nothing, and the projection does
    not throw on pages of its page type, where [runs] is always an array; the
    empty page list projects to the empty list in both. *)
Theorem select_empty_pages :
  (∀ data : InfiniteData TracePage, ∃ out, run (Traces.select data) = Normal out)
  ∧ (∀ (pre post : list TracePage) (page : TracePage),
       spans page = None ∨ spans page = Some [] →
       run (Traces.select {| pages := pre ++ page :: post |})
       = run (Traces.select {| pages := pre ++ post |}))
  ∧ (∀ data : InfiniteData RunPage,
       Runs.well_typed data → ∃ out, run (Runs.select data) = Normal out)
  ∧ (∀ (pre post : list RunPage) (page : RunPage),
       runs page = Some [] →
       run (Runs.select {| pages := pre ++ page :: post |})
       = run (Runs.select {| pages := pre ++ post |}))
  ∧ run (Traces.select {| pages := [] |}) = Normal []
  ∧ run (Runs.select {| pages := [] |}) = Normal [].
Proof.
  split; [|split; [|split; [|split; [|split]]]].
  - intros data. eexists. apply run_Traces_select.
  - intros pre post page Hp. rewrite !run_Traces_select. do 2 f_equal.
    rewrite !Traces_records_app, Traces_records_cons.
    by destruct Hp as [-> | ->].
  - intros data Hty. eexists. by apply run_Runs_select.
  - intros pre post page Hp.
    assert (is_Some (runs page)) as Hsome by (by rewrite Hp).
    destruct (decide (Runs.well_typed {| pages := pre ++ post |})) as [Hty|Hty].
    + rewrite !run_Runs_select by (done || by apply Runs_well_typed_middle).
      do 3 f_equal. rewrite !Runs_records_app, Runs_records_cons. by rewrite Hp.
    + rewrite !run_Runs_select_throws; [done..|].
      by rewrite Runs_well_typed_middle.
  - by vm_compute.
  - by vm_compute.
Qed.

(** A page without records between two pages that have some. *)
Lemma select_empty_pages_witness :
  run (Traces.select
         {| pages := [page_abc] ++ {| spans := None; pagination := None |} :: [trace_page [span_d]] |})
  = run (Traces.select {| pages := [page_abc] ++ [trace_page [span_d]] |})
  ∧ run (Traces.select {| pages := [page_abc] ++ trace_page [] :: [trace_page [span_d]] |})
    = run (Traces.select {| pages := [page_abc] ++ [trace_page [span_d]] |})
  ∧ (∃ out, run (Runs.select {| pages := [run_page [makeRun "r1" "one"]; run_page []] |})
            = Normal out)
  ∧ run (Runs.select
           {| pages := [run_page [makeRun "r1" "one"]] ++ run_page [] :: [run_page [makeRun "r2" "two"]] |})
    = run (Runs.select
             {| pages := [run_page [makeRun "r1" "one"]] ++ [run_page [makeRun "r2" "two"]] |}).
Proof.
  destruct select_empty_pages as (_ & Htraces & Htotal & Hruns & _).
  split; [|split; [|split]].
  - apply Htraces. by left.
  - apply Htraces. by right.
  - apply Htotal. by repeat constructor.
  - by apply Hruns.
Defined.

Lemma data_as_runs_well_typed data :
  spans_present data → Runs.well_typed (data_as_runs data).
Proof.
  unfold spans_present, Runs.well_typed. destruct data as [ps]. cbn [pages data_as_runs].
  rewrite Forall_fmap. intros Hps. eapply Forall_impl; [exact Hps|].
  intros page [recs Hrecs]. simpl. rewrite Hrecs. by eexists.
Qed.

Lemma data_as_runs_records data :
  Runs.records (data_as_runs data) = span_as_run <$> Traces.records data.
Proof.
  unfold Runs.records, Traces.records. destruct data as [ps]. cbn [pages data_as_runs].
  induction ps as [|page ps IH]; [done|].
  rewrite !fmap_cons. cbn [mjoin list_join]. rewrite fmap_app. f_equal; [|apply IH].
  unfold page_as_runs. simpl. by destruct (spans page).
Qed.

(** C9: on pages that all carry their record sequence, the two projections
    are one function up to the renaming of [traceId] to [runId] and of [spans]
    to [runs]: each returns the first occurrence of every identifier, in the
    order of the flattened pages, and the runs hook on the renamed pages
    returns the renamed result of the traces hook. *)
Theorem select_traces_runs_agree (data : InfiniteData TracePage) :
  spans_present data →
  run (Traces.select data)
  = Normal (first_occurrences traceId (Traces.records data))
  ∧ run (Runs.select (data_as_runs data))
    = Normal (Some <$> first_occurrences runId (Runs.records (data_as_runs data)))
  ∧ first_occurrences runId (Runs.records (data_as_runs data))
    = span_as_run <$> first_occurrences traceId (Traces.records data).
Proof.
  intros Hpresent. rewrite <-!first_seen_occurrences. split; [|split].
  - apply run_Traces_select.
  - by apply run_Runs_select, data_as_runs_well_typed.
  - rewrite data_as_runs_records. by apply fresh_keys_fmap.
Qed.

(** Two pages that share identifier "b". *)
Lemma select_traces_runs_agree_witness :
  run (Traces.select {| pages := [page_abc; trace_page [span_b; span_d]] |})
  = Normal [span_a; span_b; span_c; span_d]
  ∧ run (Runs.select (data_as_runs {| pages := [page_abc; trace_page [span_b; span_d]] |}))
    = Normal (Some <$> (span_as_run <$> [span_a; span_b; span_c; span_d])).
Proof.
  destruct (select_traces_runs_agree {| pages := [page_abc; trace_page [span_b; span_d]] |})
    as (Htraces & Hruns & Hren); [by repeat constructor|].
  split; [by rewrite Htraces|]. rewrite Hruns, Hren. by vm_compute.
Defined.

(** ** The accumulator keeps one page per index *)

Section accumulator_facts.
Import Accumulator.
Implicit Types (acc : list Entry) (p q : TracePage) (idx : nat).

Lemma retain_indices idx p acc i :
  i ∈ index <$> retain idx p acc ↔ i = idx ∨ i ∈ index <$> acc.
Proof.
  induction acc as [|e acc IH]; simpl.
  - rewrite list_elem_of_singleton. set_solver.
  - repeat case_decide; rewrite ?fmap_cons; simpl; set_solver.
Qed.

Lemma retain_sorted idx p acc :
  StronglySorted lt (index <$> acc) → StronglySorted lt (index <$> retain idx p acc).
Proof.
  induction acc as [|e acc IH]; simpl; intros Hs.
  - repeat constructor.
  - apply StronglySorted_inv in Hs as [Hacc He]. rewrite Forall_forall in He.
    destruct (decide (idx < index e)) as [Hlt|Hge];
      [|destruct (decide (idx = index e)) as [->|Hne]]; rewrite !fmap_cons; simpl.
    + constructor; [by constructor; [|apply Forall_forall]|].
      constructor; [done|]. apply Forall_forall. intros i Hi%He. lia.
    + constructor; [done|by apply Forall_forall].
    + constructor; [by apply IH|]. apply Forall_forall.
      intros i [->|Hi]%retain_indices; [lia|].
      by apply He.
Qed.

Lemma foldl_step_sorted evs acc :
  StronglySorted lt (index <$> acc) → StronglySorted lt (index <$> foldl step acc evs).
Proof.
  revert acc. induction evs as [|ev evs IH]; intros acc Hacc; [done|].
  simpl. apply IH. destruct ev; [by apply retain_sorted|done].
Qed.

Lemma session_sorted evs : StronglySorted lt (index <$> session evs).
Proof. apply foldl_step_sorted. constructor. Qed.

Lemma sorted_NoDup (l : list nat) : StronglySorted lt l → NoDup l.
Proof.
  induction 1 as [|x l _ IH Hx]; constructor; [|done].
  rewrite Forall_forall in Hx. intros Hin%Hx. lia.
Qed.

Lemma live_above idx acc :
  Forall (λ i, idx < i) (index <$> acc) → live idx acc = [].
Proof.
  unfold live. induction acc as [|e acc IH]; [done|].
  rewrite fmap_cons, Forall_cons. intros [He Hacc].
  rewrite filter_cons_False by lia. by apply IH.
Qed.

Lemma live_length idx acc :
  StronglySorted lt (index <$> acc) → length (live idx acc) ≤ 1.
Proof.
  unfold live. induction acc as [|e acc IH]; simpl; [lia|].
  intros [Hacc He]%StronglySorted_inv. rewrite filter_cons.
  case_decide as Hidx; [|by apply IH]. subst idx.
  pose proof (live_above (index e) acc He) as Hnil. unfold live in Hnil.
  rewrite fmap_cons, Hnil. simpl. lia.
Qed.

Lemma live_retain idx p acc :
  StronglySorted lt (index <$> acc) → live idx (retain idx p acc) = [p].
Proof.
  induction acc as [|e acc IH]; simpl.
  - intros _. unfold live. by rewrite filter_cons_True.
  - intros [Hacc He]%StronglySorted_inv.
    destruct (decide (idx < index e)) as [Hlt|Hge];
      [|destruct (decide (idx = index e)) as [->|Hne]].
    + unfold live. rewrite filter_cons_True by done. rewrite fmap_cons. f_equal.
      apply (live_above idx (e :: acc)). rewrite fmap_cons. constructor; [done|].
      eapply Forall_impl; [exact He|]. simpl. lia.
    + unfold live. rewrite filter_cons_True by done. rewrite fmap_cons. f_equal.
      by apply live_above.
    + unfold live. rewrite filter_cons_False by (simpl; lia). by apply IH.
Qed.

Lemma retain_retain_length idx p q acc :
  length (retain idx q (retain idx p acc)) = length (retain idx p acc).
Proof.
  induction acc as [|e acc IH]; simpl.
  - rewrite decide_False by lia. by rewrite decide_True by done.
  - destruct (decide (idx < index e)) as [Hlt|Hge];
      [|destruct (decide (idx = index e)) as [Heq|Hne]]; simpl.
    + rewrite decide_False by lia. by rewrite decide_True by done.
    + rewrite decide_False by lia. by rewrite decide_True by done.
    + rewrite decide_False by done. rewrite decide_False by done. simpl. by rewrite IH.
Qed.

Lemma session_snoc evs ev : session (evs ++ [ev]) = step (session evs) ev.
Proof. unfold session. by rewrite foldl_app. Qed.

End accumulator_facts.

(** C1: the retained set of a query session holds at most one live page per
    page index.  A completed fetch of a page index, page 0 of the periodic
    refresh among them, leaves exactly one entry for that index, the page
    just fetched, and a refresh that follows a fetch of the same index does
    not make the retained set longer; a failed fetch changes nothing.  After
    a fetch of page 0 and a refresh of page 0 that both return [[a; b; c]],
    page 0 has one live entry and the projection has length 3. *)
Theorem accumulator_one_live_page_per_index :
  (∀ (evs : list Accumulator.Event) (idx : nat),
     length (Accumulator.live idx (Accumulator.session evs)) ≤ 1)
  ∧ (∀ evs : list Accumulator.Event,
       NoDup (Accumulator.index <$> Accumulator.session evs))
  ∧ (∀ (evs : list Accumulator.Event) (idx : nat) (p : TracePage),
       Accumulator.live idx (Accumulator.session (evs ++ [Accumulator.Completed idx p]))
       = [p])
  ∧ (∀ (evs : list Accumulator.Event) (idx : nat) (p q : TracePage),
       length (Accumulator.session
                 (evs ++ [Accumulator.Completed idx p; Accumulator.Completed idx q]))
       = length (Accumulator.session (evs ++ [Accumulator.Completed idx p])))
  ∧ (∀ (evs : list Accumulator.Event) (idx : nat),
       Accumulator.session (evs ++ [Accumulator.Failed idx]) = Accumulator.session evs)
  ∧ Accumulator.live 0
      (Accumulator.session
         [Accumulator.Completed 0 page_abc; Accumulator.Completed 0 page_abc])
    = [page_abc]
  ∧ run (Traces.select
           (Accumulator.data
              (Accumulator.session
                 [Accumulator.Completed 0 page_abc; Accumulator.Completed 0 page_abc])))
    = Normal [span_a; span_b; span_c]
  ∧ length [span_a; span_b; span_c] = 3.
Proof.
  split; [|split; [|split; [|split; [|split; [|split; [|split]]]]]].
  - intros evs idx. apply live_length, session_sorted.
  - intros evs. apply sorted_NoDup, session_sorted.
  - intros evs idx p. rewrite session_snoc. apply live_retain, session_sorted.
  - intros evs idx p q.
    replace (evs ++ [Accumulator.Completed idx p; Accumulator.Completed idx q])
      with ((evs ++ [Accumulator.Completed idx p]) ++ [Accumulator.Completed idx q])
      by (by rewrite <-(assoc_L (++))).
    rewrite !session_snoc. apply retain_retain_length.
  - intros evs idx. by rewrite session_snoc.
  - by vm_compute.
  - by vm_compute.
  - done.
Qed.

(** Were the refreshed page appended instead, the projection would still
    have length 3. *)
Example select_appended_refresh :
  run (Traces.select {| pages := [page_abc; page_abc] |})
  = Normal [span_a; span_b; span_c].
Proof. by vm_compute. Qed.

(** ** Further properties of the projection *)

Section first_seen_more.
Context {A : Type} (key : A → string).
Implicit Types (seen : gset string) (l : list A) (k : string).

Lemma fresh_keys_sublist seen l : fresh_keys key seen l `sublist_of` l.
Proof.
  revert seen. induction l as [|y l IH]; intros seen; simpl; [done|].
  case_decide; [by apply sublist_cons|by apply sublist_skip].
Qed.

Lemma first_seen_keys l : keys_of key (first_seen key l) = keys_of key l.
Proof. unfold first_seen. rewrite fresh_keys_keys. set_solver. Qed.

Lemma first_seen_idempotent l : first_seen key (first_seen key l) = first_seen key l.
Proof. apply first_seen_distinct, fresh_keys_NoDup. Qed.

Lemma first_seen_prefix l1 l2 : first_seen key l1 `prefix_of` first_seen key (l1 ++ l2).
Proof. unfold first_seen. rewrite fresh_keys_app. by eexists. Qed.

Lemma first_seen_fixed_iff l : first_seen key l = l ↔ NoDup (key <$> l).
Proof.
  split; [|apply first_seen_distinct].
  intros Hl. rewrite <-Hl. apply fresh_keys_NoDup.
Qed.

Lemma head_matching_first_seen l k :
  head (matching key k (first_seen key l)) = head (matching key k l).
Proof. rewrite matching_first_seen. by destruct (head (matching key k l)). Qed.

Lemma keys_of_Permutation l l' : l ≡ₚ l' → keys_of key l = keys_of key l'.
Proof. intros Hl. unfold keys_of. by rewrite Hl. Qed.

End first_seen_more.

(** The store a [filter] with one of the two callbacks leaves. *)
Section filter_store.
Context {A B : Type} (key : B → string) (inj : B → A) (cb : ref → A → JS bool).

Hypothesis cb_spec : ∀ seen x (σ : store) S,
  σ !! seen = Some S →
  cb seen (inj x) σ
  = Normal (bool_decide (key x ∉ S),
            if decide (key x ∈ S) then σ else <[seen := {[key x]} ∪ S]> σ).

Lemma Array_filter_store seen l (σ : store) S :
  σ !! seen = Some S →
  Array_filter (cb seen) (inj <$> l) σ
  = Normal (inj <$> fresh_keys key S l, <[seen := keys_of key l ∪ S]> σ).
Proof.
  revert σ S. induction l as [|x l IH]; intros σ S Hσ.
  - simpl. unfold mret, JS_ret. do 2 f_equal. symmetry. apply insert_id.
    rewrite Hσ. f_equal. unfold keys_of. set_solver.
  - rewrite fmap_cons. cbn [Array_filter fresh_keys]. unfold mbind, JS_bind.
    rewrite (cb_spec _ _ _ _ Hσ).
    destruct (decide (key x ∈ S)) as [Hx|Hx].
    + rewrite (IH σ S Hσ). rewrite bool_decide_false by tauto.
      unfold mret, JS_ret. do 3 f_equal. unfold keys_of. rewrite fmap_cons. set_solver.
    + rewrite (IH (<[seen := {[key x]} ∪ S]> σ) ({[key x]} ∪ S))
        by (by rewrite lookup_insert_eq).
      rewrite bool_decide_true by done. unfold mret, JS_ret.
      rewrite insert_insert_eq. do 3 f_equal. unfold keys_of. rewrite fmap_cons.
      set_solver.
Qed.

End filter_store.

Lemma Traces_select_store data (σ : store) :
  Traces.select data σ
  = Normal (first_seen traceId (Traces.records data),
            <[fresh (dom σ) := keys_of traceId (Traces.records data)]> σ).
Proof.
  change (Traces.select data σ)
    with (Array_filter (Traces.unseen (fresh (dom σ))) (Traces.records data)
            (<[fresh (dom σ) := ∅]> σ)).
  rewrite <-(list_fmap_id (Traces.records data)) at 1.
  rewrite (Array_filter_store traceId id Traces.unseen Traces_unseen_spec _ _ _ ∅)
    by apply new_Set_lookup.
  rewrite list_fmap_id, insert_insert_eq, (right_id_L ∅ (∪)). done.
Qed.

Lemma Runs_select_store data (σ : store) :
  Runs.well_typed data →
  Runs.select data σ
  = Normal (Some <$> first_seen runId (Runs.records data),
            <[fresh (dom σ) := keys_of runId (Runs.records data)]> σ).
Proof.
  intros Hty.
  change (Runs.select data σ)
    with (Array_filter (Runs.unseen (fresh (dom σ)))
            (Array_flatMap (λ page, spread (runs page)) (pages data))
            (<[fresh (dom σ) := ∅]> σ)).
  rewrite (Runs_flatMap_well_typed _ Hty).
  rewrite (Array_filter_store runId Some Runs.unseen Runs_unseen_spec _ _ _ ∅)
    by apply new_Set_lookup.
  rewrite insert_insert_eq, (right_id_L ∅ (∪)). done.
Qed.

Lemma fresh_ref_unused (σ : store) : σ !! fresh (dom σ) = None.
Proof. apply not_elem_of_dom, is_fresh. Qed.

Lemma Traces_records_single recs pg :
  Traces.records {| pages := [{| spans := Some recs; pagination := pg |}] |} = recs.
Proof. unfold Traces.records. simpl. apply app_nil_r. Qed.

Lemma Runs_records_single recs :
  Runs.records {| pages := [{| runs := Some recs |}] |} = recs.
Proof. unfold Runs.records. simpl. apply app_nil_r. Qed.

Lemma Runs_well_typed_app ps1 ps2 :
  Runs.well_typed {| pages := ps1 ++ ps2 |}
  ↔ Runs.well_typed {| pages := ps1 |} ∧ Runs.well_typed {| pages := ps2 |}.
Proof. unfold Runs.well_typed. cbn [pages]. apply Forall_app. Qed.

Lemma Runs_select_Normal_inv data out :
  run (Runs.select data) = Normal out →
  Runs.well_typed data ∧ out = Some <$> first_seen runId (Runs.records data).
Proof.
  intros Hout. destruct (decide (Runs.well_typed data)) as [Hty|Hty].
  - rewrite (run_Runs_select _ Hty) in Hout. by injection Hout as <-.
  - by rewrite (run_Runs_select_throws _ Hty) in Hout.
Qed.

(** X1: the projection only drops records: what either [select] returns is
    the flattened pages with some records left out, the others in their
    order, so it is never longer than the flattened pages. *)
Theorem select_sublist :
  (∀ data : InfiniteData TracePage,
     ∃ out, run (Traces.select data) = Normal out
            ∧ out `sublist_of` Traces.records data
            ∧ length out ≤ length (Traces.records data))
  ∧ (∀ (data : InfiniteData RunPage) out,
       run (Runs.select data) = Normal out →
       out `sublist_of` (Some <$> Runs.records data)
       ∧ length out ≤ length (Runs.records data)).
Proof.
  split.
  - intros data. eexists. split; [apply run_Traces_select|].
    split; [apply fresh_keys_sublist|]. apply sublist_length, fresh_keys_sublist.
  - intros data out [_ ->]%Runs_select_Normal_inv. split.
    + apply fmap_sublist, fresh_keys_sublist.
    + rewrite length_fmap. apply sublist_length, fresh_keys_sublist.
Qed.

(** Pages that repeat "b". *)
Lemma select_sublist_witness :
  [Some (makeRun "a" "A"); Some (makeRun "b" "B")]
    `sublist_of` (Some <$> Runs.records
                    {| pages := [run_page [makeRun "a" "A"; makeRun "b" "B"];
                                 run_page [makeRun "b" "B2"]] |})
  ∧ length [Some (makeRun "a" "A"); Some (makeRun "b" "B")]
    ≤ length (Runs.records
                {| pages := [run_page [makeRun "a" "A"; makeRun "b" "B"];
                             run_page [makeRun "b" "B2"]] |}).
Proof.
  apply (proj2 select_sublist
           {| pages := [run_page [makeRun "a" "A"; makeRun "b" "B"];
                        run_page [makeRun "b" "B2"]] |}).
  by vm_compute.
Defined.

(** X2: the projection loses no identifier: the identifiers of the output are
    exactly those of the pages, every record of the pages has a record of the
    same identifier in the output, and the output has as many records as the
    pages have distinct identifiers. *)
Theorem select_covers_identifiers :
  (∀ data : InfiniteData TracePage,
     ∃ out, run (Traces.select data) = Normal out
            ∧ keys_of traceId out = keys_of traceId (Traces.records data)
            ∧ (∀ r, r ∈ Traces.records data → ∃ r', r' ∈ out ∧ traceId r' = traceId r)
            ∧ length out = size (keys_of traceId (Traces.records data)))
  ∧ (∀ data : InfiniteData RunPage,
       Runs.well_typed data →
       ∃ recs, run (Runs.select data) = Normal (Some <$> recs)
               ∧ keys_of runId recs = keys_of runId (Runs.records data)
               ∧ (∀ r, r ∈ Runs.records data → ∃ r', r' ∈ recs ∧ runId r' = runId r)
               ∧ length recs = size (keys_of runId (Runs.records data))).
Proof.
  split.
  - intros data. eexists. split; [apply run_Traces_select|].
    split; [apply first_seen_keys|]. split; [|apply first_seen_length].
    intros r Hr. apply elem_of_keys_of. rewrite first_seen_keys.
    apply elem_of_keys_of. eauto.
  - intros data Hty. eexists. split; [by apply run_Runs_select|].
    split; [apply first_seen_keys|]. split; [|apply first_seen_length].
    intros r Hr. apply elem_of_keys_of. rewrite first_seen_keys.
    apply elem_of_keys_of. eauto.
Qed.

(** Two pages of runs that share "b". *)
Lemma select_covers_identifiers_witness :
  ∃ recs,
    run (Runs.select {| pages := [run_page [makeRun "a" "A"; makeRun "b" "B"];
                                  run_page [makeRun "b" "B2"]] |})
    = Normal (Some <$> recs)
    ∧ keys_of runId recs
      = keys_of runId (Runs.records
                         {| pages := [run_page [makeRun "a" "A"; makeRun "b" "B"];
                                      run_page [makeRun "b" "B2"]] |})
    ∧ (∀ r, r ∈ Runs.records
                  {| pages := [run_page [makeRun "a" "A"; makeRun "b" "B"];
                               run_page [makeRun "b" "B2"]] |} →
            ∃ r', r' ∈ recs ∧ runId r' = runId r)
    ∧ length recs
      = size (keys_of runId (Runs.records
                               {| pages := [run_page [makeRun "a" "A"; makeRun "b" "B"];
                                            run_page [makeRun "b" "B2"]] |})).
Proof.
  apply (proj2 select_covers_identifiers). by repeat constructor.
Defined.

(** X3: looking an identifier up finds the same record in the projection as
    in the flattened pages: the first record of the pages that carries it, and
    nothing when no record does. *)
Theorem select_lookup_agrees :
  (∀ (data : InfiniteData TracePage) (k : string),
     ∃ out, run (Traces.select data) = Normal out
            ∧ head (matching traceId k out)
              = head (matching traceId k (Traces.records data)))
  ∧ (∀ (data : InfiniteData RunPage) (k : string),
       Runs.well_typed data →
       ∃ recs, run (Runs.select data) = Normal (Some <$> recs)
               ∧ head (matching runId k recs)
                 = head (matching runId k (Runs.records data))).
Proof.
  split.
  - intros data k. eexists. split; [apply run_Traces_select|].
    apply head_matching_first_seen.
  - intros data k Hty. eexists. split; [by apply run_Runs_select|].
    apply head_matching_first_seen.
Qed.

(** Identifier "b", on both pages. *)
Lemma select_lookup_agrees_witness :
  ∃ recs,
    run (Runs.select {| pages := [run_page [makeRun "a" "A"; makeRun "b" "B"];
                                  run_page [makeRun "b" "B2"]] |})
    = Normal (Some <$> recs)
    ∧ head (matching runId "b" recs)
      = head (matching runId "b"
                (Runs.records {| pages := [run_page [makeRun "a" "A"; makeRun "b" "B"];
                                           run_page [makeRun "b" "B2"]] |})).
Proof.
  apply (proj2 select_lookup_agrees). by repeat constructor.
Defined.

(** X4: projecting is idempotent: a page that holds the output of [select]
    projects to that output again. *)
Theorem select_idempotent :
  (∀ data : InfiniteData TracePage,
     ∃ out, run (Traces.select data) = Normal out
            ∧ ∀ pg, run (Traces.select
                           {| pages := [{| spans := Some out; pagination := pg |}] |})
                    = Normal out)
  ∧ (∀ data : InfiniteData RunPage,
       Runs.well_typed data →
       ∃ recs, run (Runs.select data) = Normal (Some <$> recs)
               ∧ run (Runs.select {| pages := [{| runs := Some recs |}] |})
                 = Normal (Some <$> recs)).
Proof.
  split.
  - intros data. eexists. split; [apply run_Traces_select|].
    intros pg. rewrite run_Traces_select, Traces_records_single.
    by rewrite first_seen_idempotent.
  - intros data Hty. eexists. split; [by apply run_Runs_select|].
    rewrite run_Runs_select by (by repeat constructor).
    by rewrite Runs_records_single, first_seen_idempotent.
Qed.

(** A page of runs with a repeated identifier. *)
Lemma select_idempotent_witness :
  ∃ recs,
    run (Runs.select {| pages := [run_page [makeRun "a" "A"; makeRun "a" "A2"]] |})
    = Normal (Some <$> recs)
    ∧ run (Runs.select {| pages := [{| runs := Some recs |}] |}) = Normal (Some <$> recs).
Proof.
  apply (proj2 select_idempotent). by repeat constructor.
Defined.

(** X5: further pages only append: the projection of the pages fetched so far
    is a prefix of the projection after more pages have come in, so no row of
    the list moves or goes away. *)
Theorem select_prefix_stable :
  (∀ ps more : list TracePage,
     ∃ before after,
       run (Traces.select {| pages := ps |}) = Normal before
       ∧ run (Traces.select {| pages := ps ++ more |}) = Normal after
       ∧ before `prefix_of` after)
  ∧ (∀ ps more : list RunPage,
       Runs.well_typed {| pages := ps ++ more |} →
       ∃ before after,
         run (Runs.select {| pages := ps |}) = Normal before
         ∧ run (Runs.select {| pages := ps ++ more |}) = Normal after
         ∧ before `prefix_of` after).
Proof.
  split.
  - intros ps more. eexists _, _. split; [apply run_Traces_select|].
    split; [apply run_Traces_select|].
    rewrite Traces_records_app. apply first_seen_prefix.
  - intros ps more Hty. pose proof Hty as [Hps _]%Runs_well_typed_app.
    eexists _, _. split; [by apply run_Runs_select|].
    split; [by apply run_Runs_select|].
    rewrite Runs_records_app. destruct (first_seen_prefix runId
      (Runs.records {| pages := ps |}) (Runs.records {| pages := more |})) as [k ->].
    rewrite fmap_app. by eexists.
Qed.

(** A second page of runs that repeats "b" and brings "c". *)
Lemma select_prefix_stable_witness :
  ∃ before after,
    run (Runs.select {| pages := [run_page [makeRun "a" "A"; makeRun "b" "B"]] |})
    = Normal before
    ∧ run (Runs.select
             {| pages := [run_page [makeRun "a" "A"; makeRun "b" "B"]]
                         ++ [run_page [makeRun "b" "B2"; makeRun "c" "C"]] |})
      = Normal after
    ∧ before `prefix_of` after.
Proof.
  apply (proj2 select_prefix_stable). by repeat constructor.
Defined.

(** X6: the projection returns the flattened pages unchanged exactly when no
    two of their records share an identifier. *)
Theorem select_keeps_all_iff_distinct :
  (∀ data : InfiniteData TracePage,
     run (Traces.select data) = Normal (Traces.records data)
     ↔ NoDup (traceId <$> Traces.records data))
  ∧ (∀ data : InfiniteData RunPage,
       run (Runs.select data) = Normal (Some <$> Runs.records data)
       ↔ Runs.well_typed data ∧ NoDup (runId <$> Runs.records data)).
Proof.
  split.
  - intros data. rewrite run_Traces_select, <-first_seen_fixed_iff.
    split; [by intros [= ->]|by intros ->].
  - intros data. split.
    + intros [Hty Heq]%Runs_select_Normal_inv. split; [done|].
      apply first_seen_fixed_iff. symmetry. by apply (inj (fmap Some)).
    + intros [Hty Hnd]. rewrite run_Runs_select by done.
      by rewrite (first_seen_distinct _ _ Hnd).
Qed.

(** Distinct identifiers in one direction, a repeated one in the other. *)
Lemma select_keeps_all_iff_distinct_witness :
  run (Traces.select {| pages := [page_abc; trace_page [span_d; span_e]] |})
  = Normal (Traces.records {| pages := [page_abc; trace_page [span_d; span_e]] |})
  ∧ ¬ NoDup (traceId <$> Traces.records {| pages := [page_abc; page_abc] |}).
Proof.
  destruct select_keeps_all_iff_distinct as [Htraces _]. split.
  - apply Htraces. apply (bool_decide_unpack _). by vm_compute.
  - intros Hnd%Htraces. by vm_compute in Hnd.
Defined.

Lemma Traces_records_Permutation ps ps' :
  ps ≡ₚ ps' → Traces.records {| pages := ps |} ≡ₚ Traces.records {| pages := ps' |}.
Proof. intros Hps. unfold Traces.records. cbn [pages]. by rewrite Hps. Qed.

Lemma Runs_records_Permutation ps ps' :
  ps ≡ₚ ps' → Runs.records {| pages := ps |} ≡ₚ Runs.records {| pages := ps' |}.
Proof. intros Hps. unfold Runs.records. cbn [pages]. by rewrite Hps. Qed.

Lemma Runs_well_typed_Permutation ps ps' :
  ps ≡ₚ ps' → Runs.well_typed {| pages := ps |} → Runs.well_typed {| pages := ps' |}.
Proof. intros Hps. unfold Runs.well_typed. cbn [pages]. by rewrite Hps. Qed.

(** X7: the order of the pages decides which record stands for an identifier
    and where, but not how many rows there are: the same pages in another
    order project to a list of the same length over the same identifiers. *)
Theorem select_page_order_same_identifiers :
  (∀ ps ps' : list TracePage,
     ps ≡ₚ ps' →
     ∃ out out',
       run (Traces.select {| pages := ps |}) = Normal out
       ∧ run (Traces.select {| pages := ps' |}) = Normal out'
       ∧ length out = length out'
       ∧ keys_of traceId out = keys_of traceId out')
  ∧ (∀ ps ps' : list RunPage,
       ps ≡ₚ ps' → Runs.well_typed {| pages := ps |} →
       ∃ recs recs',
         run (Runs.select {| pages := ps |}) = Normal (Some <$> recs)
         ∧ run (Runs.select {| pages := ps' |}) = Normal (Some <$> recs')
         ∧ length recs = length recs'
         ∧ keys_of runId recs = keys_of runId recs').
Proof.
  split.
  - intros ps ps' Hps. eexists _, _. split; [apply run_Traces_select|].
    split; [apply run_Traces_select|].
    rewrite !first_seen_length, !first_seen_keys.
    by rewrite (keys_of_Permutation traceId _ _ (Traces_records_Permutation _ _ Hps)).
  - intros ps ps' Hps Hty. eexists _, _. split; [by apply run_Runs_select|].
    split; [by apply run_Runs_select, (Runs_well_typed_Permutation ps)|].
    rewrite !first_seen_length, !first_seen_keys.
    by rewrite (keys_of_Permutation runId _ _ (Runs_records_Permutation _ _ Hps)).
Qed.

(** Two pages that share "b", in both orders: the lists differ, their length
    and identifiers do not. *)
Lemma select_page_order_same_identifiers_witness :
  ∃ out out',
    run (Traces.select
           {| pages := [page_abc; trace_page [makeSpan "b" "Stale"; span_d]] |})
    = Normal out
    ∧ run (Traces.select
             {| pages := [trace_page [makeSpan "b" "Stale"; span_d]; page_abc] |})
      = Normal out'
    ∧ length out = length out'
    ∧ keys_of traceId out = keys_of traceId out'.
Proof.
  apply (proj1 select_page_order_same_identifiers). apply perm_swap.
Defined.

(** X8: an invocation of [select] allocates one [Set], on a reference that was
    not in use, and leaves in it exactly the identifiers of the pages; every
    [Set] that was in the store before is as it was. *)
Theorem select_store_effect :
  (∀ (data : InfiniteData TracePage) (σ : store),
     ∃ out seen,
       σ !! seen = None
       ∧ Traces.select data σ
         = Normal (out, <[seen := keys_of traceId (Traces.records data)]> σ))
  ∧ (∀ (data : InfiniteData TracePage) (σ σ' : store) out r keys,
       Traces.select data σ = Normal (out, σ') → σ !! r = Some keys →
       σ' !! r = Some keys)
  ∧ (∀ (data : InfiniteData RunPage) (σ : store),
       Runs.well_typed data →
       ∃ out seen,
         σ !! seen = None
         ∧ Runs.select data σ
           = Normal (out, <[seen := keys_of runId (Runs.records data)]> σ)).
Proof.
  split; [|split].
  - intros data σ. eexists _, _. split; [apply fresh_ref_unused|].
    apply Traces_select_store.
  - intros data σ σ' out r keys Hsel Hr. rewrite Traces_select_store in Hsel.
    injection Hsel as _ <-. rewrite lookup_insert_ne; [done|].
    intros <-. by rewrite fresh_ref_unused in Hr.
  - intros data σ Hty. eexists _, _. split; [apply fresh_ref_unused|].
    by apply Runs_select_store.
Qed.

(** A store that holds the [Set] of an earlier invocation. *)
Lemma select_store_effect_witness :
  Traces.select {| pages := [page_abc; page_abc] |} {[ 1%positive := {["z"]} ]}
  = Normal ([span_a; span_b; span_c],
            {[ 1%positive := {["z"]}; 2%positive := {["a"; "b"; "c"]} ]})
  ∧ ({[ 1%positive := {["z"]}; 2%positive := {["a"; "b"; "c"]} ]} : store) !! 1%positive
    = Some {["z"]}
  ∧ ∃ out seen,
      ({[ 1%positive := {["r0"]} ]} : store) !! seen = None
      ∧ Runs.select {| pages := [run_page [makeRun "r1" "one"]] |} {[ 1%positive := {["r0"]} ]}
        = Normal (out, <[seen := keys_of runId
                                   (Runs.records {| pages := [run_page [makeRun "r1" "one"]] |})]>
                         {[ 1%positive := {["r0"]} ]}).
Proof.
  destruct select_store_effect as (_ & Hframe & Hruns).
  assert (Traces.select {| pages := [page_abc; page_abc] |} {[ 1%positive := {["z"]} ]}
          = Normal ([span_a; span_b; span_c],
                    {[ 1%positive := {["z"]}; 2%positive := {["a"; "b"; "c"]} ]}))
    as Hsel by (by vm_compute).
  split; [done|]. split.
  - apply (Hframe _ _ _ _ _ _ Hsel). by vm_compute.
  - apply Hruns. by repeat constructor.
Defined.

(** X9: the runs [select] throws a [TypeError] exactly when some page has no
    [runs], wherever in the page sequence that page stands. *)
Theorem Runs_select_throws_iff (data : InfiniteData RunPage) :
  run (Runs.select data) = Throw TypeError
  ↔ ∃ page, page ∈ pages data ∧ runs page = None.
Proof.
  split.
  - intros Hthrow. destruct (decide (Runs.well_typed data)) as [Hty|Hty].
    + by rewrite (run_Runs_select _ Hty) in Hthrow.
    + apply not_Forall_Exists in Hty; [|by apply _].
      apply Exists_exists in Hty as (page & Hin & Hnone). exists page. split; [done|].
      simpl in Hnone. destruct (runs page); [|done]. exfalso. apply Hnone. by eexists.
  - intros (page & Hin & Hnone). apply run_Runs_select_throws.
    unfold Runs.well_typed. rewrite Forall_forall. intros Hall.
    destruct (Hall page Hin) as [recs Hrecs]. congruence.
Qed.

(** The page without [runs] comes last, after a page that has some. *)
Lemma Runs_select_throws_iff_witness :
  run (Runs.select {| pages := [run_page [makeRun "r1" "one"]; {| runs := None |}] |})
  = Throw TypeError.
Proof.
  apply Runs_select_throws_iff. exists {| runs := None |}. split; [|done].
  cbn [pages]. apply list_elem_of_further, list_elem_of_here.
Defined.

(** X10: in the runs hook [getNextPageParam] and [select] fail on the same
    pages: each throws a [TypeError] on a page without [runs], and neither
    throws on a page that has them. *)
Theorem Runs_callbacks_throw_together
    (page : RunPage) (allPages : list RunPage) (lastPageParam : Z) :
  (Runs.getNextPageParam page allPages lastPageParam = Throw TypeError
   ↔ run (Runs.select {| pages := [page] |}) = Throw TypeError)
  ∧ (runs page = None
     ↔ Runs.getNextPageParam page allPages lastPageParam = Throw TypeError).
Proof.
  assert (runs page = None
          ↔ Runs.getNextPageParam page allPages lastPageParam = Throw TypeError) as Hnext.
  { unfold Runs.getNextPageParam. destruct (runs page) as [recs|]; simpl; [|done].
    unfold mbind, completion_bind. by case_bool_decide. }
  split; [|done]. rewrite <-Hnext, Runs_select_throws_iff. cbn [pages]. split.
  - intros Hnone. exists page. split; [apply list_elem_of_here|done].
  - by intros (page' & ->%list_elem_of_singleton & Hnone).
Qed.

(** X11: the requests of the runs hook tile the run list.  The request of the
    page parameter that [getNextPageParam] returns starts where the request of
    the last page ended; the requests of two page parameters share no
    position; every position from 0 on lies in the request of one page
    parameter from 0 on; the first request starts at offset 0. *)
Theorem Runs_requests_tile :
  (∀ (recs : list Run) (allPages : list RunPage) (lastPageParam next : Z),
     Runs.getNextPageParam {| runs := Some recs |} allPages lastPageParam
     = Normal (Some next) →
     RunsQuery.offset (RunsQuery.queryFn next)
     = (RunsQuery.offset (RunsQuery.queryFn lastPageParam)
        + RunsQuery.limit (RunsQuery.queryFn lastPageParam))%Z)
  ∧ (∀ (p q position : Z),
       RunsQuery.covers (RunsQuery.queryFn p) position →
       RunsQuery.covers (RunsQuery.queryFn q) position → p = q)
  ∧ (∀ position : Z,
       (0 ≤ position)%Z →
       ∃ p, (0 ≤ p)%Z ∧ RunsQuery.covers (RunsQuery.queryFn p) position)
  ∧ RunsQuery.offset (RunsQuery.queryFn RunsQuery.initialPageParam) = 0%Z.
Proof.
  split; [|split; [|split; [|done]]].
  - intros recs allPages n next. unfold Runs.getNextPageParam. simpl.
    unfold mbind, completion_bind. case_bool_decide; [done|].
    intros [= <-]. unfold RunsQuery.queryFn. simpl. lia.
  - intros p q i. unfold RunsQuery.covers, RunsQuery.queryFn. simpl.
    change (Z.of_nat Runs.PER_PAGE) with 20%Z. lia.
  - intros i Hi. exists (i / 20)%Z. split; [by apply Z.div_pos|].
    unfold RunsQuery.covers, RunsQuery.queryFn. simpl.
    change (Z.of_nat Runs.PER_PAGE) with 20%Z.
    pose proof (Z.div_mod i 20). pose proof (Z.mod_pos_bound i 20). lia.
Qed.

(** A full page fetched with parameter 2, and position 45 of the run list. *)
Lemma Runs_requests_tile_witness :
  RunsQuery.offset (RunsQuery.queryFn 3) = 60%Z
  ∧ (∃ p, (0 ≤ p)%Z ∧ RunsQuery.covers (RunsQuery.queryFn p) 45)
  ∧ ∀ q, RunsQuery.covers (RunsQuery.queryFn q) 45 → 2%Z = q.
Proof.
  destruct Runs_requests_tile as (Hnext & Hone & Hsome & _).
  split; [|split].
  - rewrite (Hnext (replicate 20 (makeRun "r" "R")) [] 2%Z 3%Z); by vm_compute.
  - apply Hsome. lia.
  - intros q. apply Hone. unfold RunsQuery.covers. vm_compute. by split.
Defined.

(** X12: the query of [useWorkflowRun] is enabled exactly when neither the
    workflow identifier nor the run identifier is the empty string. *)
Theorem useWorkflowRun_enabled_iff (workflowId runId : string) :
  WorkflowRun.enabled workflowId runId = true ↔ workflowId ≠ "" ∧ runId ≠ "".
Proof.
  unfold WorkflowRun.enabled, WorkflowRun.and_then, WorkflowRun.Boolean.
  rewrite negb_true_iff, bool_decide_eq_false.
  destruct (decide (workflowId = "")) as [->|Hw]; naive_solver.
Qed.


